(** * Feature preparation stage of the sleep-state pipeline

    A shallow embedding of [run/prepare_data.py]: the fixed z-score
    normalisation of [anglez] and [enmo], the cyclical encoding of the hour,
    month and minute of every sample, the sort / group-by / per-series
    persistence loop of [main], and the file-system effects around it.

    Conventions of the model.
    - Floating-point columns are idealised as real numbers ([R]); the
      width of the stored floats is a property of the dataframe and array
      libraries and is not represented.
    - A [Path] is its list of components; [p / s] appends one component,
      so a series identifier is taken to be a plain directory name.
    - The file system is a finite map from the paths of regular files to
      their contents; a directory exists when some file lies below it.
      Creating directories and saving arrays do not fail.
    - The dataframe engine is modelled by what the program asks of it:
      a strict [to_datetime] for the given format (fixed field widths,
      range checks) whose result is an instant in UTC, a multi-key [sort]
      that keeps rows with equal keys in their order, and a [group_by]
      that yields every distinct key once together with its rows in frame
      order. *)

From Stdlib Require Import ZArith List String Ascii Bool Reals Lra Lia.
From Stdlib Require Import Sorting.Sorted Sorting.Permutation.
From stdpp Require Import base option list strings gmap fin_maps.

Local Open Scope Z_scope.

(* ===================================================================== *)
(** ** Calendar arithmetic of the datetime type *)
(* ===================================================================== *)

Module Calendar.

(** Days since 1970-01-01 of a proleptic Gregorian date. *)
Definition days_from_civil (y m d : Z) : Z :=
  let y' := if m <=? 2 then y - 1 else y in
  let era := y' / 400 in
  let yoe := y' - era * 400 in
  let mp := if 2 <? m then m - 3 else m + 9 in
  let doy := (153 * mp + 2) / 5 + d - 1 in
  let doe := yoe * 365 + yoe / 4 - yoe / 100 + doy in
  era * 146097 + doe - 719468.

(** The inverse direction: (year, month, day) of a day number. *)
Definition civil_from_days (z : Z) : Z * Z * Z :=
  let z' := z + 719468 in
  let era := z' / 146097 in
  let doe := z' - era * 146097 in
  let yoe := (doe - doe / 1460 + doe / 36524 - doe / 146096) / 365 in
  let doy := doe - (365 * yoe + yoe / 4 - yoe / 100) in
  let mp := (5 * doy + 2) / 153 in
  let d := doy - (153 * mp + 2) / 5 + 1 in
  let m := if mp <? 10 then mp + 3 else mp - 9 in
  let y := yoe + era * 400 in
  (if m <=? 2 then y + 1 else y, m, d).

Definition is_leap (y : Z) : bool :=
  ((y mod 4 =? 0) && negb (y mod 100 =? 0)) || (y mod 400 =? 0).

Definition days_in_month (y m : Z) : Z :=
  if m =? 2 then (if is_leap y then 29 else 28)
  else if (m =? 4) || (m =? 6) || (m =? 9) || (m =? 11) then 30
  else 31.

Definition US_PER_SECOND : Z := 1000000.
Definition US_PER_MINUTE : Z := 60 * US_PER_SECOND.
Definition US_PER_HOUR : Z := 60 * US_PER_MINUTE.
Definition US_PER_DAY : Z := 24 * US_PER_HOUR.

End Calendar.

(** A parsed timestamp: microseconds since the epoch, in UTC. *)
Definition Datetime := Z.

(** The [dt] accessors used by [add_feature]; the components are those of
    the instant read in UTC. *)
Module dt.
Import Calendar.

Definition hour (t : Datetime) : Z := (t mod US_PER_DAY) / US_PER_HOUR.
Definition minute (t : Datetime) : Z := (t mod US_PER_HOUR) / US_PER_MINUTE.
Definition month (t : Datetime) : Z :=
  let '(_, m, _) := civil_from_days (t / US_PER_DAY) in m.

End dt.

(* ===================================================================== *)
(** ** Parsing timestamps against a format string *)
(* ===================================================================== *)

Module Strptime.
Import Calendar.

Inductive Field := FYear | FMonth | FDay | FHour | FMinute | FSecond | FOffset.

Definition Field_eqb (f g : Field) : bool :=
  match f, g with
  | FYear, FYear | FMonth, FMonth | FDay, FDay | FHour, FHour
  | FMinute, FMinute | FSecond, FSecond | FOffset, FOffset => true
  | _, _ => false
  end.

(** One element of a format: a conversion or a literal character. *)
Inductive Item :=
| Num (f : Field) (width : nat)
| TzOffset
| Lit (c : ascii).

Definition directive (c : ascii) : option Item :=
  if Ascii.eqb c "Y" then Some (Num FYear 4)
  else if Ascii.eqb c "m" then Some (Num FMonth 2)
  else if Ascii.eqb c "d" then Some (Num FDay 2)
  else if Ascii.eqb c "H" then Some (Num FHour 2)
  else if Ascii.eqb c "M" then Some (Num FMinute 2)
  else if Ascii.eqb c "S" then Some (Num FSecond 2)
  else if Ascii.eqb c "z" then Some TzOffset
  else None.

Fixpoint parse_format (fmt : string) : option (list Item) :=
  match fmt with
  | EmptyString => Some []
  | String c rest =>
      if Ascii.eqb c "%" then
        match rest with
        | EmptyString => None
        | String d rest' =>
            match directive d, parse_format rest' with
            | Some it, Some its => Some (it :: its)
            | _, _ => None
            end
        end
      else
        match parse_format rest with
        | Some its => Some (Lit c :: its)
        | None => None
        end
  end.

Definition is_digit (c : ascii) : bool :=
  let n := Z.of_N (N_of_ascii c) in (48 <=? n) && (n <=? 57).

Definition is_sign (c : ascii) : bool :=
  Ascii.eqb c "+" || Ascii.eqb c "-".

Definition digit_value (c : ascii) : Z := Z.of_N (N_of_ascii c) - 48.

(** Exactly [n] decimal digits. *)
Fixpoint scan_digits (n : nat) (acc : Z) (s : string) : option (Z * string) :=
  match n with
  | O => Some (acc, s)
  | S n' =>
      match s with
      | String c rest =>
          if is_digit c then scan_digits n' (10 * acc + digit_value c) rest
          else None
      | EmptyString => None
      end
  end.

(** What one item consumes: the fields it sets and the rest of the input. *)
Definition scan_item (it : Item) (s : string) : option (list (Field * Z) * string) :=
  match it with
  | Num f w =>
      match scan_digits w 0 s with
      | Some (v, rest) => Some ([(f, v)], rest)
      | None => None
      end
  | TzOffset =>
      match s with
      | String c rest =>
          if is_sign c then
            match scan_digits 2 0 rest with
            | Some (hh, rest') =>
                match scan_digits 2 0 rest' with
                | Some (mm, rest'') =>
                    if (hh <=? 23) && (mm <=? 59) then
                      let secs := hh * 3600 + mm * 60 in
                      Some ([(FOffset, if Ascii.eqb c "-" then - secs else secs)], rest'')
                    else None
                | None => None
                end
            | None => None
            end
          else None
      | EmptyString => None
      end
  | Lit c =>
      match s with
      | String c' rest => if Ascii.eqb c c' then Some ([], rest) else None
      | EmptyString => None
      end
  end.

(** Scan a whole string; the input has to be consumed to its end. *)
Fixpoint scan (its : list Item) (s : string) : option (list (Field * Z)) :=
  match its with
  | [] => match s with EmptyString => Some [] | _ => None end
  | it :: its' =>
      match scan_item it s with
      | Some (fs, rest) =>
          match scan its' rest with
          | Some fs' => Some (fs ++ fs')
          | None => None
          end
      | None => None
      end
  end.

Fixpoint field (f : Field) (fs : list (Field * Z)) : option Z :=
  match fs with
  | [] => None
  | (g, v) :: fs' => if Field_eqb f g then Some v else field f fs'
  end.

(** Range checks, then the instant in UTC. *)
Definition resolve (fs : list (Field * Z)) : option Datetime :=
  match field FYear fs, field FMonth fs, field FDay fs,
        field FHour fs, field FMinute fs, field FSecond fs, field FOffset fs with
  | Some y, Some m, Some d, Some hh, Some mi, Some ss, Some off =>
      if (1 <=? m) && (m <=? 12) && (1 <=? d) && (d <=? days_in_month y m)
         && (hh <=? 23) && (mi <=? 59) && (ss <=? 59)
      then
        let local := days_from_civil y m d * 86400 + hh * 3600 + mi * 60 + ss in
        Some ((local - off) * US_PER_SECOND)
      else None
  | _, _, _, _, _, _, _ => None
  end.

Definition strptime (fmt s : string) : option Datetime :=
  match parse_format fmt with
  | Some its =>
      match scan its s with
      | Some fs => resolve fs
      | None => None
      end
  | None => None
  end.

End Strptime.

(* ===================================================================== *)
(** ** Records, constants and the column transforms *)
(* ===================================================================== *)

Local Open Scope R_scope.

(** A row of the series table as it is stored. *)
Record RawRecord := {
  raw_series_id : string;
  raw_step : N;
  raw_anglez : R;
  raw_enmo : R;
  raw_timestamp : string;
}.

(** A row after the preprocessing [select]. *)
Record Sample := {
  series_id : string;
  anglez : R;
  enmo : R;
  timestamp : Datetime;
}.

Definition FEATURE_NAMES : list string :=
  [ "anglez"; "enmo"; "hour_sin"; "hour_cos";
    "month_sin"; "month_cos"; "minute_sin"; "minute_cos" ]%string.

Definition ANGLEZ_MEAN : R := -8.810476.
Definition ANGLEZ_STD : R := 35.521877.
Definition ENMO_MEAN : R := 0.041315.
Definition ENMO_STD : R := 0.101829.

Definition TIMESTAMP_FORMAT : string := "%Y-%m-%dT%H:%M:%S%z".

(** [str.to_datetime] with the format of [main]. *)
Definition to_datetime (s : string) : option Datetime :=
  Strptime.strptime TIMESTAMP_FORMAT s.

(** The two arithmetic expressions of the preprocessing [with_columns]. *)
Definition normalize_anglez (x : R) : R := (x - ANGLEZ_MEAN) / ANGLEZ_STD.
Definition normalize_enmo (x : R) : R := (x - ENMO_MEAN) / ENMO_STD.

(** [with_columns(...).select([series_id, anglez, enmo, timestamp])] on one row. *)
Definition preprocess_row (r : RawRecord) : option Sample :=
  match to_datetime (raw_timestamp r) with
  | Some t =>
      Some {| series_id := raw_series_id r;
              anglez := normalize_anglez (raw_anglez r);
              enmo := normalize_enmo (raw_enmo r);
              timestamp := t |}
  | None => None
  end.

(** The collected frame: every row converts, or the query fails. *)
Fixpoint preprocess (rows : list RawRecord) : option (list Sample) :=
  match rows with
  | [] => Some []
  | r :: rows' =>
      match preprocess_row r, preprocess rows' with
      | Some s, Some ss => Some (s :: ss)
      | _, _ => None
      end
  end.

(** *** Sorting *)

Section Sorting.
Context {A : Type} (leb : A -> A -> bool).

Fixpoint insert_by (x : A) (l : list A) : list A :=
  match l with
  | [] => [x]
  | y :: l' => if leb x y then x :: y :: l' else y :: insert_by x l'
  end.

(** Stable insertion sort. *)
Fixpoint sort_by (l : list A) : list A :=
  match l with
  | [] => []
  | x :: l' => insert_by x (sort_by l')
  end.
End Sorting.

(** The order of [sort(by=["series_id", "timestamp"])]: identifiers are
    compared byte by byte, timestamps as instants. *)
Definition key_leb (a b : Sample) : bool :=
  match String.compare (series_id a) (series_id b) with
  | Lt => true
  | Eq => (timestamp a <=? timestamp b)%Z
  | Gt => false
  end.

Definition chrono_leb (a b : Sample) : bool :=
  (timestamp a <=? timestamp b)%Z.

Definition sort : list Sample -> list Sample := sort_by key_leb.

(** The rows of one series in time order. *)
Definition chronological : list Sample -> list Sample := sort_by chrono_leb.

(** *** Grouping *)

(** [group_by("series_id")]: the keys in the order of their last
    occurrence, each with its rows in the order of the frame.  The order
    of the groups is not fixed by the engine; no property below depends on
    it, since distinct keys are written to distinct directories. *)

Definition of_series (s : string) (df : list Sample) : list Sample :=
  filter (fun r => series_id r = s) df.

Definition n_unique (df : list Sample) : nat :=
  length (remove_dups (series_id <$> df)).

Definition group_by (df : list Sample) : list (string * list Sample) :=
  (fun s => (s, of_series s df)) <$> remove_dups (series_id <$> df).

(** *** Cyclical encoding *)

(** A frame of named float columns beside its key and time columns. *)
Record DataFrame := {
  col_series_id : list string;
  col_timestamp : list Datetime;
  float_columns : list (string * list R);
}.

Definition frame_of (df : list Sample) : DataFrame :=
  {| col_series_id := series_id <$> df;
     col_timestamp := timestamp <$> df;
     float_columns := [ ("anglez"%string, anglez <$> df); ("enmo"%string, enmo <$> df) ] |}.

Fixpoint get_column (name : string) (cols : list (string * list R)) : option (list R) :=
  match cols with
  | [] => None
  | (n, c) :: cols' => if String.eqb n name then Some c else get_column name cols'
  end.

Fixpoint set_column (name : string) (c : list R) (cols : list (string * list R))
  : list (string * list R) :=
  match cols with
  | [] => [(name, c)]
  | (n, c') :: cols' =>
      if String.eqb n name then (n, c) :: cols' else (n, c') :: set_column name c cols'
  end.

(** [with_columns]: a column of a known name is replaced, a new one is appended. *)
Definition with_columns (new : list (string * list R)) (df : DataFrame) : DataFrame :=
  {| col_series_id := col_series_id df;
     col_timestamp := col_timestamp df;
     float_columns := fold_left (fun cols nc => set_column nc.1 nc.2 cols) new (float_columns df) |}.

(** [select("series_id", *names)]: the key column and the named float
    columns are kept, the time column is dropped; fails on a name the frame
    does not have. *)
Fixpoint select_columns (names : list string) (cols : list (string * list R))
  : option (list (string * list R)) :=
  match names with
  | [] => Some []
  | n :: names' =>
      match get_column n cols, select_columns names' cols with
      | Some c, Some cs => Some ((n, c) :: cs)
      | _, _ => None
      end
  end.

Definition select (names : list string) (df : DataFrame) : option DataFrame :=
  match select_columns names (float_columns df) with
  | Some cols =>
      Some {| col_series_id := col_series_id df;
              col_timestamp := [];
              float_columns := cols |}
  | None => None
  end.

(** [rad = 2 * np.pi * (x % max_) / max_], one value of the column. *)
Definition rad (max_ : Z) (x : Z) : R := 2 * PI * IZR (x mod max_) / IZR max_.

Definition to_coord (x : list Z) (max_ : Z) (name : string) : list (string * list R) :=
  let rads := rad max_ <$> x in
  let x_sin := sin <$> rads in
  let x_cos := cos <$> rads in
  [ ((name +:+ "_sin")%string, x_sin); ((name +:+ "_cos")%string, x_cos) ].

Definition add_feature (series_df : DataFrame) : option DataFrame :=
  select FEATURE_NAMES
    (with_columns
       (to_coord (dt.hour <$> col_timestamp series_df) 24 "hour"
        ++ to_coord (dt.month <$> col_timestamp series_df) 12 "month"
        ++ to_coord (dt.minute <$> col_timestamp series_df) 60 "minute")
       series_df).

(* ===================================================================== *)
(** ** Paths, the file system and the effects of a run *)
(* ===================================================================== *)

Abbreviation Path := (list string).

Definition joinpath (p : Path) (s : string) : Path := p ++ [s].

Declare Scope path_scope.
Delimit Scope path_scope with path.
Infix "/" := joinpath : path_scope.

Inductive Content :=
| Parquet (rows : list RawRecord)
| Npy (arr : list R)
| Blob.

Inductive Event :=
| EvRmtree (p : Path)
| EvScanParquet (p : Path)
| EvMkdir (p : Path)
| EvSave (p : Path).

Record World := {
  files : gmap Path Content;
  log : list Event;
}.

Inductive Error :=
| ValueError (msg : string)
| ParseError
| IOError
| ColumnNotFoundError.

(** State and exceptions: a computation returns a value or raises, and
    leaves a world behind in both cases. *)
Definition IO (A : Type) : Type := World -> (Error + A) * World.

#[global] Instance IO_ret : MRet IO := fun A x w => (inr x, w).

#[global] Instance IO_bind : MBind IO := fun A B f m w =>
  match m w with
  | (inr x, w') => f x w'
  | (inl e, w') => (inl e, w')
  end.

Definition raise {A} (e : Error) : IO A := fun w => (inl e, w).

Definition emit (e : Event) (w : World) : World :=
  {| files := files w; log := log w ++ [e] |}.

Fixpoint for_each {A} (l : list A) (body : A -> IO unit) : IO unit :=
  match l with
  | [] => mret tt
  | x :: l' => body x ≫= fun _ => for_each l' body
  end.

(** The files at or below [p]. *)
Definition subtree (p : Path) (m : gmap Path Content) : gmap Path Content :=
  filter (fun kv => p `prefix_of` kv.1) m.

(** [Path.exists]. *)
Definition path_exists (p : Path) : IO bool := fun w =>
  (inr (bool_decide (subtree p (files w) ≠ ∅)), w).

Definition remove_tree (p : Path) (m : gmap Path Content) : gmap Path Content :=
  filter (fun kv => ¬ p `prefix_of` kv.1) m.

(** [shutil.rmtree]: refuses a regular file, removes everything below a directory. *)
Definition rmtree (p : Path) : IO unit := fun w =>
  match files w !! p with
  | Some _ => (inl IOError, w)
  | None => (inr tt, emit (EvRmtree p) {| files := remove_tree p (files w); log := log w |})
  end.

(** [pl.scan_parquet]: the rows of the table stored at [p]. *)
Definition scan_parquet (p : Path) : IO (list RawRecord) := fun w =>
  match files w !! p with
  | Some (Parquet rows) => (inr rows, emit (EvScanParquet p) w)
  | _ => (inl IOError, w)
  end.

(** [Path.mkdir(parents=True, exist_ok=True)]. *)
Definition mkdir (p : Path) : IO unit := fun w => (inr tt, emit (EvMkdir p) w).

(** [np.save]. *)
Definition np_save (p : Path) (x : list R) : IO unit := fun w =>
  (inr tt, emit (EvSave p) {| files := <[p := Npy x]> (files w); log := log w |}).

(** Lift the result of a frame query into the run. *)
Definition collect {A} (e : Error) (o : option A) : IO A :=
  match o with
  | Some x => mret x
  | None => raise e
  end.

Definition save_each_series (this_series_df : DataFrame) (columns : list string)
    (output_dir : Path) : IO unit :=
  mkdir output_dir ≫= fun _ =>
  for_each columns (fun col_name =>
    x ← collect ColumnNotFoundError (get_column col_name (float_columns this_series_df));
    np_save (output_dir / (col_name +:+ ".npy"))%path x).

Record Config := {
  cfg_processed_dir : Path;
  cfg_data_dir : Path;
  cfg_phase : string;
}.

Definition main (cfg : Config) : IO unit :=
  let processed_dir := (cfg_processed_dir cfg / cfg_phase cfg)%path in
  ex ← path_exists processed_dir;
  (if ex : bool then rmtree processed_dir else mret tt) ≫= fun _ =>
  series_lf ←
    (if bool_decide (cfg_phase cfg ∈ ["train"; "test"]%string) then
       scan_parquet (cfg_data_dir cfg / (cfg_phase cfg +:+ "_series.parquet"))%path
     else if String.eqb (cfg_phase cfg) "dev" then
       scan_parquet (cfg_processed_dir cfg / (cfg_phase cfg +:+ "_series.parquet"))%path
     else
       raise (ValueError ("Invalid phase: " +:+ cfg_phase cfg)));
  series_df ← collect ParseError (preprocess series_lf);
  let series_df := sort series_df in
  let n_unique := n_unique series_df in
  for_each (group_by series_df) (fun '(series_id, this_series_df) =>
    this_series_df ← collect ColumnNotFoundError (add_feature (frame_of this_series_df));
    let series_dir := (processed_dir / series_id)%path in
    save_each_series this_series_df FEATURE_NAMES series_dir).

(** Running the program from a file system. *)
Definition run (cfg : Config) (fs : gmap Path Content) : (Error + unit) * World :=
  main cfg {| files := fs; log := [] |}.

Definition S1_row : RawRecord :=
  {| raw_series_id := "S1"; raw_step := 0%N; raw_anglez := 0; raw_enmo := 0;
     raw_timestamp := "2021-01-01T00:00:00+0000" |}.

(* ===================================================================== *)
(** ** Notions used to state the properties of a run *)
(* ===================================================================== *)

(** [processed_dir] of [main]: the output tree of the phase. *)
Definition output_dir (cfg : Config) : Path :=
  (cfg_processed_dir cfg / cfg_phase cfg)%path.

(** The table [main] scans, when the phase is a known one. *)
Definition source_path (cfg : Config) : option Path :=
  if bool_decide (cfg_phase cfg ∈ ["train"; "test"]%string) then
    Some (cfg_data_dir cfg / (cfg_phase cfg +:+ "_series.parquet"))%path
  else if String.eqb (cfg_phase cfg) "dev" then
    Some (cfg_processed_dir cfg / (cfg_phase cfg +:+ "_series.parquet"))%path
  else None.

(** The value of a feature channel on one sample: the row-wise reading of
    the column expressions of [main] and [add_feature]. *)
Definition channel (name : string) (r : Sample) : R :=
  if String.eqb name "anglez" then anglez r
  else if String.eqb name "enmo" then enmo r
  else if String.eqb name "hour_sin" then sin (rad 24 (dt.hour (timestamp r)))
  else if String.eqb name "hour_cos" then cos (rad 24 (dt.hour (timestamp r)))
  else if String.eqb name "month_sin" then sin (rad 12 (dt.month (timestamp r)))
  else if String.eqb name "month_cos" then cos (rad 12 (dt.month (timestamp r)))
  else if String.eqb name "minute_sin" then sin (rad 60 (dt.minute (timestamp r)))
  else if String.eqb name "minute_cos" then cos (rad 60 (dt.minute (timestamp r)))
  else 0.

Definition feature_columns (g : list Sample) : list (string * list R) :=
  (fun n => (n, channel n <$> g)) <$> FEATURE_NAMES.

Definition npy_path (dir : Path) (name : string) : Path :=
  (dir / (name +:+ ".npy"))%path.

(** The files one series contributes, in the order they are saved. *)
Definition series_writes (dir : Path) (g : list Sample) : list (Path * Content) :=
  (fun n => (npy_path dir n, Npy (channel n <$> g))) <$> FEATURE_NAMES.

Definition series_events (dir : Path) : list Event :=
  EvMkdir dir :: ((fun n => EvSave (npy_path dir n)) <$> FEATURE_NAMES).

(** All the files of a run over the preprocessed frame [df]. *)
Definition outputs (root : Path) (df : list Sample) : list (Path * Content) :=
  group_by (sort df) ≫= fun '(sid, g) => series_writes (root / sid)%path g.

Definition output_events (root : Path) (df : list Sample) : list Event :=
  group_by (sort df) ≫= fun '(sid, g) => series_events (root / sid)%path.

Definition apply_writes (m : gmap Path Content) (ws : list (Path * Content))
  : gmap Path Content :=
  foldl (fun m kv => <[kv.1 := kv.2]> m) m ws.

(** What a run does, case by case. *)
Definition run_outcome (cfg : Config) (fs : gmap Path Content) : (Error + unit) * World :=
  let root := output_dir cfg in
  match fs !! root with
  | Some _ => (inl IOError, {| files := fs; log := [] |})
  | None =>
      let fs1 := remove_tree root fs in
      let log1 := if bool_decide (subtree root fs ≠ ∅) then [EvRmtree root] else [] in
      match source_path cfg with
      | None =>
          (inl (ValueError ("Invalid phase: " +:+ cfg_phase cfg)),
           {| files := fs1; log := log1 |})
      | Some src =>
          match fs1 !! src with
          | Some (Parquet rows) =>
              match preprocess rows with
              | Some df =>
                  (inr tt,
                   {| files := apply_writes fs1 (outputs root df);
                      log := log1 ++ EvScanParquet src :: output_events root df |})
              | None =>
                  (inl ParseError, {| files := fs1; log := log1 ++ [EvScanParquet src] |})
              end
          | _ => (inl IOError, {| files := fs1; log := log1 |})
          end
      end
  end.








(** The worked example: one series, one sample. *)
Definition S1_cfg : Config :=
  {| cfg_processed_dir := ["out"]; cfg_data_dir := ["data"]; cfg_phase := "train" |}.

Definition S1_fs : gmap Path Content :=
  {[ ["data"; "train_series.parquet"] := Parquet [S1_row] ]}.








(** A development table below the processed root. *)
Definition dev_cfg : Config :=
  {| cfg_processed_dir := ["out"]; cfg_data_dir := ["data"]; cfg_phase := "dev" |}.

Definition dev_fs : gmap Path Content :=
  {[ ["out"; "dev_series.parquet"] := Parquet [S1_row] ]}.

(** The preprocessed row of the worked example. *)
Definition S1_sample : Sample :=
  {| series_id := "S1";
     anglez := normalize_anglez 0;
     enmo := normalize_enmo 0;
     timestamp := 1609459200000000%Z |}.

(* ===================================================================== *)
(** ** Inputs used to exercise further properties *)
(* ===================================================================== *)


(** A configuration whose raw data directory lies inside the output tree. *)
Definition nested_cfg : Config :=
  {| cfg_processed_dir := ["out"]; cfg_data_dir := ["out"; "train"; "raw"];
     cfg_phase := "train" |}.

Definition nested_fs : gmap Path Content :=
  {[ ["out"; "train"; "raw"; "train_series.parquet"] := Parquet [S1_row] ]}.

(** A file system with a regular file where the output tree should be. *)
Definition blocked_fs : gmap Path Content :=
  <[ ["out"; "train"] := Blob ]> S1_fs.

(** A file system with an empty table and one with no table at all. *)
Definition empty_table_fs : gmap Path Content :=
  {[ ["data"; "train_series.parquet"] := Parquet [] ]}.

Definition no_table_fs : gmap Path Content :=
  {[ ["out"; "train"; "S0"; "anglez.npy"] := Npy [] ]}.



(* ===================================================================== *)
(** ** Sorting and grouping *)
(* ===================================================================== *)

Section SortingFacts.
Context {A : Type} (leb : A -> A -> bool).
Hypothesis leb_total : forall a b, leb a b = true \/ leb b a = true.
Hypothesis leb_trans : forall a b c, leb a b = true -> leb b c = true -> leb a c = true.

Lemma insert_by_perm x l : Permutation (x :: l) (insert_by leb x l).
Proof.
  induction l as [|y l IH]; simpl; [reflexivity|].
  destruct (leb x y); [reflexivity|].
  rewrite perm_swap. now apply perm_skip.
Qed.

Lemma sort_by_perm l : Permutation l (sort_by leb l).
Proof.
  induction l as [|x l IH]; simpl; [constructor|].
  rewrite <- insert_by_perm. now apply perm_skip.
Qed.

Lemma sort_by_length l : length (sort_by leb l) = length l.
Proof. symmetry. apply Permutation_length, sort_by_perm. Qed.

Lemma insert_by_sorted x l :
  StronglySorted (fun a b => leb a b = true) l ->
  StronglySorted (fun a b => leb a b = true) (insert_by leb x l).
Proof.
  induction 1 as [|y l Hs IH Hall]; simpl.
  - repeat constructor.
  - destruct (leb x y) eqn:Hxy.
    + constructor; [now constructor|].
      constructor; [exact Hxy|].
      eapply Forall_impl; [exact Hall|]. intros z Hz. simpl in Hz. eauto.
    + constructor; [exact IH|].
      assert (Hyx : leb y x = true) by (destruct (leb_total x y); congruence).
      eapply Permutation_Forall; [apply insert_by_perm|].
      now constructor.
Qed.

Lemma sort_by_sorted l : StronglySorted (fun a b => leb a b = true) (sort_by leb l).
Proof.
  induction l as [|x l IH]; simpl; [constructor|]. now apply insert_by_sorted.
Qed.

(** Filtering commutes with the stable sort, for any comparison that
    agrees with [leb] on the rows that are kept. *)
Context (P : A -> Prop) `{!forall x, Decision (P x)} (leb' : A -> A -> bool).
Hypothesis leb_agree : forall a b, P a -> P b -> leb' a b = leb a b.

Lemma insert_by_head x l :
  Forall (fun y => leb' x y = true) l -> insert_by leb' x l = x :: l.
Proof. destruct 1 as [|y l Hy _]; simpl; [reflexivity|]. now rewrite Hy. Qed.

Lemma filter_insert_by x l :
  StronglySorted (fun a b => leb a b = true) l ->
  filter P (insert_by leb x l)
  = if decide (P x) then insert_by leb' x (filter P l) else filter P l.
Proof.
  induction 1 as [|y l Hs IH Hall]; simpl.
  - rewrite filter_cons. destruct (decide (P x)); reflexivity.
  - destruct (leb x y) eqn:Hxy.
    + rewrite (filter_cons _ x). destruct (decide (P x)) as [Hx|Hx]; [|reflexivity].
      symmetry. apply insert_by_head.
      apply Forall_forall. intros z Hz.
      apply list_elem_of_filter in Hz as [HPz Hz].
      rewrite leb_agree by assumption.
      apply elem_of_cons in Hz as [->|Hz]; [exact Hxy|].
      apply (leb_trans x y z Hxy).
      rewrite Forall_forall in Hall. now apply Hall.
    + rewrite (filter_cons _ y), IH, (filter_cons _ y).
      destruct (decide (P x)) as [Hx|Hx], (decide (P y)) as [Hy|Hy];
        simpl; try reflexivity.
      now rewrite leb_agree, Hxy by assumption.
Qed.

Lemma filter_sort_by l :
  filter P (sort_by leb l) = sort_by leb' (filter P l).
Proof.
  induction l as [|x l IH]; simpl; [reflexivity|].
  rewrite filter_insert_by by apply sort_by_sorted.
  rewrite filter_cons. destruct (decide (P x)); simpl; now rewrite IH.
Qed.
End SortingFacts.

(** The byte-wise order on strings is a total order. *)
Lemma ascii_compare_refl a : Ascii.compare a a = Eq.
Proof. apply N.compare_refl. Qed.

Lemma ascii_compare_lt_trans a b c :
  Ascii.compare a b = Lt -> Ascii.compare b c = Lt -> Ascii.compare a c = Lt.
Proof.
  unfold Ascii.compare. rewrite !N.compare_lt_iff. apply N.lt_trans.
Qed.

Lemma string_compare_refl s : String.compare s s = Eq.
Proof. induction s as [|a s IH]; simpl; [reflexivity|]. now rewrite ascii_compare_refl. Qed.

Lemma string_compare_lt_trans s1 : forall s2 s3,
  String.compare s1 s2 = Lt -> String.compare s2 s3 = Lt -> String.compare s1 s3 = Lt.
Proof.
  induction s1 as [|a s1 IH]; intros [|b s2] [|c s3]; simpl; try congruence.
  destruct (Ascii.compare a b) eqn:Hab; try discriminate;
    destruct (Ascii.compare b c) eqn:Hbc; try discriminate; intros H1 H2.
  - apply Ascii.compare_eq_iff in Hab, Hbc. subst.
    rewrite ascii_compare_refl. eauto.
  - apply Ascii.compare_eq_iff in Hab. subst. now rewrite Hbc.
  - apply Ascii.compare_eq_iff in Hbc. subst. now rewrite Hab.
  - now rewrite (ascii_compare_lt_trans a b c).
Qed.

Lemma key_leb_total a b : key_leb a b = true \/ key_leb b a = true.
Proof.
  unfold key_leb. rewrite (String.compare_antisym (series_id b)).
  destruct (String.compare (series_id a) (series_id b)); simpl; auto.
  destruct (Z.leb_spec (timestamp a) (timestamp b)); [auto|].
  right. apply Z.leb_le. lia.
Qed.

Lemma key_leb_trans a b c :
  key_leb a b = true -> key_leb b c = true -> key_leb a c = true.
Proof.
  unfold key_leb.
  destruct (String.compare (series_id a) (series_id b)) eqn:Hab; try discriminate;
    destruct (String.compare (series_id b) (series_id c)) eqn:Hbc; try discriminate;
    intros H1 H2.
  - apply String.compare_eq_iff in Hab, Hbc. rewrite Hab, Hbc, string_compare_refl.
    apply Z.leb_le. apply Z.leb_le in H1, H2. lia.
  - apply String.compare_eq_iff in Hab. now rewrite Hab, Hbc.
  - apply String.compare_eq_iff in Hbc. now rewrite <- Hbc, Hab.
  - now rewrite (string_compare_lt_trans _ _ _ Hab Hbc).
Qed.

Lemma key_leb_same_series a b :
  series_id a = series_id b -> key_leb a b = chrono_leb a b.
Proof. unfold key_leb, chrono_leb. intros ->. now rewrite string_compare_refl. Qed.

Lemma sort_perm df : Permutation df (sort df).
Proof. apply sort_by_perm. Qed.


(** The group of a series in the sorted frame is that series in time order. *)
Lemma of_series_sort sid df :
  of_series sid (sort df) = chronological (of_series sid df).
Proof.
  unfold of_series, sort, chronological.
  apply filter_sort_by.
  - apply key_leb_total.
  - apply key_leb_trans.
  - intros a b Ha Hb. symmetry. apply key_leb_same_series. congruence.
Qed.




(* ===================================================================== *)
(** ** The model at work on concrete inputs *)
(* ===================================================================== *)

Example strptime_epoch :
  to_datetime "1970-01-01T00:00:00+0000" = Some 0%Z.
Proof. reflexivity. Qed.

Example strptime_offset :
  to_datetime "2018-08-14T15:30:00-0400"
  = Some (1534275000 * 1000000)%Z.
Proof. reflexivity. Qed.

Example strptime_components :
  (fun t => (dt.hour t, dt.month t, dt.minute t))
    <$> to_datetime "2018-08-31T22:45:00-0400"
  = Some (2, 9, 45)%Z.
Proof. reflexivity. Qed.

Example to_datetime_rejects_short_offset :
  to_datetime "2018-08-14T15:30:00-04" = None.
Proof. reflexivity. Qed.

Example to_datetime_rejects_month_13 :
  to_datetime "2018-13-14T15:30:00-0400" = None.
Proof. reflexivity. Qed.

Example run_S1_log :
  log (run S1_cfg S1_fs).2
  = [ EvScanParquet ["data"; "train_series.parquet"];
      EvMkdir ["out"; "train"; "S1"];
      EvSave ["out"; "train"; "S1"; "anglez.npy"];
      EvSave ["out"; "train"; "S1"; "enmo.npy"];
      EvSave ["out"; "train"; "S1"; "hour_sin.npy"];
      EvSave ["out"; "train"; "S1"; "hour_cos.npy"];
      EvSave ["out"; "train"; "S1"; "month_sin.npy"];
      EvSave ["out"; "train"; "S1"; "month_cos.npy"];
      EvSave ["out"; "train"; "S1"; "minute_sin.npy"];
      EvSave ["out"; "train"; "S1"; "minute_cos.npy"] ]%string.
Proof. vm_compute. reflexivity. Qed.

Example sort_groups_by_series_then_time :
  let row sid t := {| series_id := sid; anglez := 0; enmo := 0; timestamp := t |} in
  sort [row "b" 5%Z; row "a" 9%Z; row "b" 1%Z; row "a" 2%Z]
  = [row "a" 2%Z; row "a" 9%Z; row "b" 1%Z; row "b" 5%Z].
Proof. reflexivity. Qed.

(* ===================================================================== *)
(** ** The feature frame *)
(* ===================================================================== *)

Lemma get_feature_column g n :
  n ∈ FEATURE_NAMES -> get_column n (feature_columns g) = Some (channel n <$> g).
Proof.
  unfold FEATURE_NAMES. intros Hn.
  repeat (apply elem_of_cons in Hn as [->|Hn]; [reflexivity|]).
  now apply elem_of_nil in Hn.
Qed.

Lemma add_feature_frame_of g :
  add_feature (frame_of g)
  = Some {| col_series_id := series_id <$> g;
            col_timestamp := [];
            float_columns := feature_columns g |}.
Proof.
  unfold add_feature, frame_of, to_coord, feature_columns, FEATURE_NAMES.
  cbn -[sin cos rad]. rewrite <- !list_fmap_compose. reflexivity.
Qed.

(* ===================================================================== *)
(** ** The effects of a run *)
(* ===================================================================== *)

Lemma apply_writes_app m ws1 ws2 :
  apply_writes m (ws1 ++ ws2) = apply_writes (apply_writes m ws1) ws2.
Proof. apply foldl_app. Qed.

Lemma for_each_save cols dir names : forall w,
  Forall (fun n => is_Some (get_column n cols)) names ->
  for_each names (fun col_name =>
    x ← collect ColumnNotFoundError (get_column col_name cols);
    np_save (dir / (col_name +:+ ".npy"))%path x) w
  = (inr tt,
     {| files := apply_writes (files w)
                   ((fun n => (npy_path dir n, Npy (default [] (get_column n cols)))) <$> names);
        log := log w ++ ((fun n => EvSave (npy_path dir n)) <$> names) |}).
Proof.
  induction names as [|n names IH]; intros w Hall.
  - simpl. rewrite app_nil_r. now destruct w.
  - apply Forall_cons in Hall as [[c Hc] Hall].
    cbn [for_each]. unfold mbind at 1, IO_bind at 1.
    unfold mbind at 1, IO_bind at 1. rewrite Hc. cbn [collect mret IO_ret np_save].
    rewrite IH by assumption. cbn. rewrite Hc. cbn.
    now rewrite <- app_assoc.
Qed.

Lemma save_each_series_run ids g dir w :
  save_each_series {| col_series_id := ids; col_timestamp := [];
                      float_columns := feature_columns g |} FEATURE_NAMES dir w
  = (inr tt,
     {| files := apply_writes (files w) (series_writes dir g);
        log := log w ++ series_events dir |}).
Proof.
  unfold save_each_series. unfold mbind at 1, IO_bind at 1. cbn [mkdir float_columns].
  rewrite for_each_save.
  - cbn [files log emit]. rewrite <- app_assoc. reflexivity.
  - apply Forall_forall. intros n Hn. rewrite get_feature_column by assumption. eauto.
Qed.

Lemma save_loop root : forall (groups : list (string * list Sample)) w,
  for_each groups (fun '(series_id, this_series_df) =>
    this_series_df ← collect ColumnNotFoundError (add_feature (frame_of this_series_df));
    let series_dir := (root / series_id)%path in
    save_each_series this_series_df FEATURE_NAMES series_dir) w
  = (inr tt,
     {| files := apply_writes (files w)
                   (groups ≫= fun '(sid, g) => series_writes (root / sid)%path g);
        log := log w ++ (groups ≫= fun '(sid, g) => series_events (root / sid)%path) |}).
Proof.
  induction groups as [|[sid g] groups IH]; intros w.
  - simpl. rewrite app_nil_r. now destruct w.
  - cbn [for_each]. unfold mbind at 1, IO_bind at 1.
    rewrite add_feature_frame_of. unfold mbind at 1, IO_bind at 1.
    cbn [collect mret IO_ret]. rewrite save_each_series_run, IH.
    cbn [files log]. rewrite !bind_cons, apply_writes_app, <- app_assoc.
    reflexivity.
Qed.

Lemma subtree_lookup root m p :
  subtree root m !! p = if decide (root `prefix_of` p) then m !! p else None.
Proof.
  unfold subtree. destruct (decide (root `prefix_of` p)) as [H|H].
  - destruct (m !! p) as [c|] eqn:Hp.
    + apply map_lookup_filter_Some. auto.
    + apply map_lookup_filter_None. left. exact Hp.
  - apply map_lookup_filter_None. right. intros c _. exact H.
Qed.

Lemma remove_tree_lookup root m p :
  remove_tree root m !! p = if decide (root `prefix_of` p) then None else m !! p.
Proof.
  unfold remove_tree. destruct (decide (root `prefix_of` p)) as [H|H].
  - apply map_lookup_filter_None. right. intros c _ Hn. now apply Hn.
  - destruct (m !! p) as [c|] eqn:Hp.
    + apply map_lookup_filter_Some. auto.
    + apply map_lookup_filter_None. left. exact Hp.
Qed.

Lemma remove_tree_absent root m :
  subtree root m = ∅ -> remove_tree root m = m.
Proof.
  intros He. apply map_eq. intros p. rewrite remove_tree_lookup.
  destruct (decide (root `prefix_of` p)) as [H|H]; [|reflexivity].
  assert (Hs : subtree root m !! p = None) by (rewrite He; apply lookup_empty).
  rewrite subtree_lookup in Hs. now destruct (decide (root `prefix_of` p)).
Qed.

Lemma subtree_of_file root m c : m !! root = Some c -> subtree root m ≠ ∅.
Proof.
  intros Hc He.
  assert (Hs : subtree root m !! root = None) by (rewrite He; apply lookup_empty).
  rewrite subtree_lookup in Hs.
  destruct (decide (root `prefix_of` root)) as [_|Hn]; [congruence|].
  now apply Hn.
Qed.

Lemma cleanup_run {A} root fs (k : () -> IO A) :
  fs !! root = None ->
  (ex ← path_exists root; (if ex : bool then rmtree root else mret tt) ≫= k)
    {| files := fs; log := [] |}
  = k tt {| files := remove_tree root fs;
            log := if bool_decide (subtree root fs ≠ ∅) then [EvRmtree root] else [] |}.
Proof.
  intros Hroot. unfold mbind at 1, IO_bind at 1. cbn [path_exists files].
  unfold mbind, IO_bind. case_bool_decide as Hex.
  - unfold rmtree. cbn [files]. now rewrite Hroot.
  - cbn [mret IO_ret]. rewrite remove_tree_absent; [reflexivity|].
    destruct (decide (subtree root fs = ∅)); [assumption|contradiction].
Qed.

Lemma cleanup_refused {A} root fs c (k : () -> IO A) :
  fs !! root = Some c ->
  (ex ← path_exists root; (if ex : bool then rmtree root else mret tt) ≫= k)
    {| files := fs; log := [] |}
  = (inl IOError, {| files := fs; log := [] |}).
Proof.
  intros Hroot. unfold mbind at 1, IO_bind at 1. cbn [path_exists files].
  rewrite bool_decide_eq_true_2 by (eapply subtree_of_file; eauto).
  unfold mbind, IO_bind, rmtree. cbn [files]. now rewrite Hroot.
Qed.

Lemma scan_parquet_run src fs1 log1 :
  scan_parquet src {| files := fs1; log := log1 |}
  = match fs1 !! src with
    | Some (Parquet rows) =>
        (inr rows, {| files := fs1; log := log1 ++ [EvScanParquet src] |})
    | _ => (inl IOError, {| files := fs1; log := log1 |})
    end.
Proof. unfold scan_parquet. cbn [files]. destruct (fs1 !! src) as [[]|]; reflexivity. Qed.

Lemma persist_run root rows w :
  (series_df ← collect ParseError (preprocess rows);
   let series_df := sort series_df in
   let n_unique := n_unique series_df in
   for_each (group_by series_df) (fun '(series_id, this_series_df) =>
     this_series_df ← collect ColumnNotFoundError (add_feature (frame_of this_series_df));
     let series_dir := (root / series_id)%path in
     save_each_series this_series_df FEATURE_NAMES series_dir)) w
  = match preprocess rows with
    | Some df =>
        (inr tt, {| files := apply_writes (files w) (outputs root df);
                    log := log w ++ output_events root df |})
    | None => (inl ParseError, w)
    end.
Proof.
  unfold mbind at 1, IO_bind at 1.
  destruct (preprocess rows) as [df|]; [|reflexivity].
  cbn [collect mret IO_ret]. cbv zeta. now rewrite save_loop.
Qed.

(** [main] run from a fresh log does what [run_outcome] describes. *)
Lemma run_eq cfg fs : run cfg fs = run_outcome cfg fs.
Proof.
  unfold run, run_outcome, main, source_path. fold (output_dir cfg).
  destruct (fs !! output_dir cfg) as [c|] eqn:Hroot.
  - eapply cleanup_refused; eauto.
  - rewrite cleanup_run by assumption.
    set (fs1 := remove_tree (output_dir cfg) fs).
    set (log1 := if bool_decide (subtree _ _ ≠ ∅) then _ else _).
    unfold mbind at 1, IO_bind at 1.
    case_bool_decide as Hphase; [|destruct (String.eqb (cfg_phase cfg) "dev")];
      try reflexivity;
      rewrite scan_parquet_run;
      (destruct (fs1 !! _) as [[rows| |]|]; try reflexivity);
      rewrite persist_run; cbn [files log];
      (destruct (preprocess rows); [rewrite <- app_assoc|]; reflexivity).
Qed.

(* ===================================================================== *)
(** ** Paths and the files of a run *)
(* ===================================================================== *)







(** *** Sequences of writes *)



(** *** The groups of the sorted frame *)





Lemma elem_of_group_by sid g df :
  (sid, g) ∈ group_by (sort df)
  <-> sid ∈ series_id <$> df /\ g = chronological (of_series sid df).
Proof.
  unfold group_by. rewrite list_elem_of_fmap. setoid_rewrite elem_of_remove_dups.
  assert (Hperm : forall s, s ∈ series_id <$> sort df <-> s ∈ series_id <$> df).
  { intros s. now rewrite <- (sort_perm df). }
  split.
  - intros (s & [= -> ->] & Hs). split; [now apply Hperm | apply of_series_sort].
  - intros [Hs ->]. exists sid. split; [now rewrite of_series_sort | now apply Hperm].
Qed.

Lemma group_by_keys_NoDup df : NoDup (group_by df).*1.
Proof.
  unfold group_by.
  assert (Hkeys : forall l : list string, ((fun s => (s, of_series s df)) <$> l).*1 = l).
  { induction l as [|s l IH]; [reflexivity|]. cbn. now rewrite IH. }
  rewrite Hkeys. apply NoDup_remove_dups.
Qed.

Lemma elem_of_outputs root df p c :
  (p, c) ∈ outputs root df
  <-> exists sid n,
        sid ∈ series_id <$> df /\ n ∈ FEATURE_NAMES
        /\ p = npy_path (root / sid)%path n
        /\ c = Npy (channel n <$> chronological (of_series sid df)).
Proof.
  unfold outputs. rewrite list_elem_of_bind. split.
  - intros ([sid g] & Hin & Hg). apply elem_of_group_by in Hg as [Hsid ->].
    unfold series_writes in Hin. apply list_elem_of_fmap in Hin as (n & [= -> ->] & Hn).
    eauto 10.
  - intros (sid & n & Hsid & Hn & -> & ->).
    exists (sid, chronological (of_series sid df)). split.
    + unfold series_writes. apply list_elem_of_fmap. eauto.
    + apply elem_of_group_by. auto.
Qed.

Lemma elem_of_outputs_keys root df p :
  p ∈ (outputs root df).*1
  <-> exists sid n,
        sid ∈ series_id <$> df /\ n ∈ FEATURE_NAMES /\ p = npy_path (root / sid)%path n.
Proof.
  rewrite list_elem_of_fmap. split.
  - intros ([p' c] & -> & Hin). apply elem_of_outputs in Hin as (sid & n & ? & ? & ? & ?).
    eauto 10.
  - intros (sid & n & Hsid & Hn & ->).
    eexists (_, _). split; [reflexivity|]. apply elem_of_outputs. eauto 10.
Qed.



(* ===================================================================== *)
(** ** Successful runs *)
(* ===================================================================== *)



Lemma remove_tree_lookup_Some root m p c :
  remove_tree root m !! p = Some c -> m !! p = Some c /\ ~ root `prefix_of` p.
Proof.
  rewrite remove_tree_lookup. destruct (decide (root `prefix_of` p)); [discriminate|auto].
Qed.

Lemma run_ok_inv cfg fs w :
  run cfg fs = (inr tt, w) ->
  exists src rows df,
    fs !! output_dir cfg = None
    /\ source_path cfg = Some src
    /\ remove_tree (output_dir cfg) fs !! src = Some (Parquet rows)
    /\ preprocess rows = Some df
    /\ files w = apply_writes (remove_tree (output_dir cfg) fs) (outputs (output_dir cfg) df)
    /\ log w = (if bool_decide (subtree (output_dir cfg) fs ≠ ∅)
                then [EvRmtree (output_dir cfg)] else [])
               ++ EvScanParquet src :: output_events (output_dir cfg) df.
Proof.
  rewrite run_eq. unfold run_outcome.
  destruct (fs !! output_dir cfg); [discriminate|].
  destruct (source_path cfg) as [src|]; [|discriminate].
  destruct (remove_tree (output_dir cfg) fs !! src) as [[rows| |]|] eqn:Hsrc; try discriminate.
  destruct (preprocess rows) as [df|] eqn:Hdf; [|discriminate].
  intros [= <-]. exists src, rows, df. auto 10.
Qed.



Lemma remove_tree_clean root m q : root `prefix_of` q -> remove_tree root m !! q = None.
Proof. intros H. rewrite remove_tree_lookup. now destruct (decide (root `prefix_of` q)). Qed.






(* ===================================================================== *)
(** ** Failing runs, reruns and the source table *)
(* ===================================================================== *)



Lemma remove_tree_subseteq root m p c :
  remove_tree root m !! p = Some c -> m !! p = Some c.
Proof. intros H. now apply remove_tree_lookup_Some in H. Qed.



Lemma elem_of_output_events root df e :
  e ∈ output_events root df ->
  (exists d, e = EvMkdir d) \/ (exists q, e = EvSave q /\ q ∈ (outputs root df).*1).
Proof.
  unfold output_events. intros He.
  apply list_elem_of_bind in He as ([sid g] & He & Hg).
  apply elem_of_group_by in Hg as [Hsid _].
  unfold series_events in He. apply elem_of_cons in He as [->|He]; [eauto|].
  apply list_elem_of_fmap in He as (n & -> & Hn).
  right. eexists. split; [reflexivity|]. apply elem_of_outputs_keys. eauto.
Qed.


Lemma cleanup_log (root : Path) (fs : gmap Path Content) (e : Event) :
  e ∈ (if bool_decide (subtree root fs ≠ ∅) then [EvRmtree root] else []) ->
  e = EvRmtree root.
Proof.
  case_bool_decide; intros He; [|now apply elem_of_nil in He].
  now apply list_elem_of_singleton in He.
Qed.








(* ===================================================================== *)
(** ** Timestamps that do not have the expected shape *)
(* ===================================================================== *)









(* ===================================================================== *)
(** ** The table a phase reads *)
(* ===================================================================== *)

Lemma run_scan_event cfg fs p :
  EvScanParquet p ∈ log (run cfg fs).2 -> source_path cfg = Some p.
Proof.
  rewrite run_eq. unfold run_outcome.
  destruct (fs !! output_dir cfg); [intros H; now apply elem_of_nil in H|].
  assert (Hpre : forall e, e ∈ (if bool_decide (subtree (output_dir cfg) fs ≠ ∅)
                                then [EvRmtree (output_dir cfg)] else []) ->
                           e <> EvScanParquet p).
  { intros e He. apply cleanup_log in He. now subst. }
  destruct (source_path cfg) as [src|].
  - destruct (remove_tree (output_dir cfg) fs !! src) as [[rows| |]|];
      cbn [snd log]; intros H;
      try (exfalso; now apply (Hpre _ H)).
    destruct (preprocess rows) as [df|]; cbn [snd log] in H;
      apply elem_of_app in H as [H|H]; try (exfalso; now apply (Hpre _ H)).
    + apply elem_of_cons in H as [[= ->]|H]; [reflexivity|].
      apply elem_of_output_events in H as [[d Hd]|[q [Hq _]]]; discriminate.
    + apply list_elem_of_singleton in H. now injection H as ->.
  - cbn [snd log]. intros H. exfalso. now apply (Hpre _ H).
Qed.

(** C10: the table that is scanned depends on the phase: for [train] and
    [test] it is [{data_dir}/{phase}_series.parquet], for [dev] it is
    [{processed_dir}/dev_series.parquet] below the processed root; a run
    scans no other table, and a successful run has scanned that one. *)
Theorem source_table_by_phase cfg fs :
  (forall p, EvScanParquet p ∈ log (run cfg fs).2 ->
     ((cfg_phase cfg = "train" \/ cfg_phase cfg = "test")
      /\ p = (cfg_data_dir cfg / (cfg_phase cfg +:+ "_series.parquet"))%path)
     \/ (cfg_phase cfg = "dev"
         /\ p = (cfg_processed_dir cfg / "dev_series.parquet")%path))
  /\ (forall w, run cfg fs = (inr tt, w) ->
        exists p rows, EvScanParquet p ∈ log w /\ fs !! p = Some (Parquet rows)).
Proof.
  split.
  - intros p Hp. apply run_scan_event in Hp. unfold source_path in Hp.
    case_bool_decide as Htt.
    + left. injection Hp as <-. split; [|reflexivity].
      apply elem_of_cons in Htt as [->|Htt]; [auto|].
      apply list_elem_of_singleton in Htt as ->. auto.
    + destruct (String.eqb_spec (cfg_phase cfg) "dev") as [Hdev|_]; [|discriminate].
      right. injection Hp as <-. rewrite Hdev. auto.
  - intros w Hrun.
    apply run_ok_inv in Hrun as (src & rows & df & _ & _ & Hsrc & _ & _ & Hlog).
    exists src, rows. split.
    + rewrite Hlog. apply elem_of_app. right. left.
    + now apply remove_tree_subseteq in Hsrc.
Qed.

Lemma source_table_by_phase_witness :
  (EvScanParquet ["out"; "dev_series.parquet"]%string ∈ log (run dev_cfg dev_fs).2
   /\ run dev_cfg dev_fs = (inr tt, (run dev_cfg dev_fs).2))
  /\ (((cfg_phase dev_cfg = "train" \/ cfg_phase dev_cfg = "test")
       /\ ["out"; "dev_series.parquet"]%string
          = (cfg_data_dir dev_cfg / (cfg_phase dev_cfg +:+ "_series.parquet"))%path)
      \/ (cfg_phase dev_cfg = "dev"
          /\ ["out"; "dev_series.parquet"]%string
             = (cfg_processed_dir dev_cfg / "dev_series.parquet")%path))
  /\ exists p rows,
       EvScanParquet p ∈ log (run dev_cfg dev_fs).2 /\ dev_fs !! p = Some (Parquet rows).
Proof.
  assert (H1 : EvScanParquet ["out"; "dev_series.parquet"]%string ∈ log (run dev_cfg dev_fs).2).
  { vm_compute. left. }
  assert (H2 : run dev_cfg dev_fs = (inr tt, (run dev_cfg dev_fs).2)).
  { rewrite (surjective_pairing (run dev_cfg dev_fs)) at 1. f_equal; vm_compute; reflexivity. }
  destruct (source_table_by_phase dev_cfg dev_fs) as [Ha Hb].
  split; [split; assumption|]. split; [exact (Ha _ H1)|exact (Hb _ H2)].
Defined.

(* ===================================================================== *)
(** ** Normalisation and cyclical encoding *)
(* ===================================================================== *)







(** C3: [to_coord] maps an integer column to exactly two columns, the sine
    and the cosine of [2*pi*(x mod period)/period], the remainder being
    taken on the integer; [add_feature] applies it to the hour (period
    24), the month (period 12) and the minute (period 60) of the
    timestamp. *)
Theorem cyclical_encoding :
  (forall (x : list Z) (max_ : Z) (name : string),
     to_coord x max_ name
     = [ ((name +:+ "_sin")%string,
          (fun v => sin (2 * PI * IZR (v mod max_) / IZR max_)) <$> x);
         ((name +:+ "_cos")%string,
          (fun v => cos (2 * PI * IZR (v mod max_) / IZR max_)) <$> x) ])
  /\ forall g : list Sample,
       exists F,
         add_feature (frame_of g) = Some F
         /\ (float_columns F).*1 = FEATURE_NAMES
         /\ get_column "hour_sin" (float_columns F)
            = Some ((fun r => sin (2 * PI * IZR (dt.hour (timestamp r) mod 24) / 24)) <$> g)
         /\ get_column "hour_cos" (float_columns F)
            = Some ((fun r => cos (2 * PI * IZR (dt.hour (timestamp r) mod 24) / 24)) <$> g)
         /\ get_column "month_sin" (float_columns F)
            = Some ((fun r => sin (2 * PI * IZR (dt.month (timestamp r) mod 12) / 12)) <$> g)
         /\ get_column "month_cos" (float_columns F)
            = Some ((fun r => cos (2 * PI * IZR (dt.month (timestamp r) mod 12) / 12)) <$> g)
         /\ get_column "minute_sin" (float_columns F)
            = Some ((fun r => sin (2 * PI * IZR (dt.minute (timestamp r) mod 60) / 60)) <$> g)
         /\ get_column "minute_cos" (float_columns F)
            = Some ((fun r => cos (2 * PI * IZR (dt.minute (timestamp r) mod 60) / 60)) <$> g).
Proof.
  split.
  - intros x max_ name. unfold to_coord. rewrite <- !list_fmap_compose. reflexivity.
  - intros g. eexists. split; [apply add_feature_frame_of|].
    cbn [float_columns]. split_and!; reflexivity.
Qed.

(** C9: in each emitted pair the squares of the sine and of the cosine
    channel add up to one, entry by entry. *)
Theorem emitted_pairs_on_unit_circle (g : list Sample) (name : string) :
  name ∈ ["hour"; "month"; "minute"]%string ->
  exists F xs ys,
    add_feature (frame_of g) = Some F
    /\ get_column (name +:+ "_sin") (float_columns F) = Some xs
    /\ get_column (name +:+ "_cos") (float_columns F) = Some ys
    /\ length xs = length g
    /\ Forall2 (fun x y => x ^ 2 + y ^ 2 = 1) xs ys.
Proof.
  intros Hname.
  assert (Hpairs : forall f : Sample -> R,
    Forall2 (fun x y => x ^ 2 + y ^ 2 = 1) ((fun r => sin (f r)) <$> g)
                                          ((fun r => cos (f r)) <$> g)).
  { intros f. induction g as [|r g IH]; [constructor|].
    rewrite !fmap_cons. constructor; [|exact IH].
    rewrite <- !Rsqr_pow2. apply sin2_cos2. }
  exists {| col_series_id := series_id <$> g; col_timestamp := [];
            float_columns := feature_columns g |}.
  repeat (apply elem_of_cons in Hname as [->|Hname];
    [eexists; eexists; split; [apply add_feature_frame_of|]; cbn [float_columns];
     split_and!; [reflexivity|reflexivity|apply length_fmap|apply Hpairs]|]).
  now apply elem_of_nil in Hname.
Qed.

Lemma emitted_pairs_on_unit_circle_witness :
  ("month"%string ∈ ["hour"; "month"; "minute"]%string)
  /\ exists F xs ys,
       add_feature (frame_of [S1_sample]) = Some F
       /\ get_column ("month" +:+ "_sin") (float_columns F) = Some xs
       /\ get_column ("month" +:+ "_cos") (float_columns F) = Some ys
       /\ length xs = length [S1_sample]
       /\ Forall2 (fun x y => x ^ 2 + y ^ 2 = 1) xs ys.
Proof.
  assert (H : "month"%string ∈ ["hour"; "month"; "minute"]%string) by (right; left).
  split; [exact H|]. exact (emitted_pairs_on_unit_circle [S1_sample] "month" H).
Defined.

(* ===================================================================== *)
(** ** The worked example *)
(* ===================================================================== *)








(* ===================================================================== *)
(** ** Further properties of the cyclical encoding *)
(* ===================================================================== *)

Lemma rad_range max_ x :
  (0 < max_)%Z -> 0 <= rad max_ x < 2 * PI.
Proof.
  intros Hm. unfold rad.
  destruct (Z.mod_pos_bound x max_ Hm) as [H0 H1].
  apply IZR_le in H0. apply IZR_lt in H1. apply IZR_lt in Hm.
  assert (HPI := PI_RGT_0).
  set (u := IZR (x mod max_)) in *. set (m := IZR max_) in *.
  assert (Hq : 0 <= u / m < 1).
  { split.
    - apply Rmult_le_pos; [lra|]. apply Rlt_le, Rinv_0_lt_compat. lra.
    - apply (Rmult_lt_reg_r m); [lra|]. unfold Rdiv.
      rewrite Rmult_assoc, Rinv_l by lra. lra. }
  replace (2 * PI * u / m) with (2 * PI * (u / m)) by (field; lra).
  split; nra.
Qed.

Lemma rad_inj max_ x y :
  (0 < max_)%Z -> rad max_ x = rad max_ y -> (x mod max_ = y mod max_)%Z.
Proof.
  intros Hm H. apply eq_IZR. unfold rad in H. apply IZR_lt in Hm.
  assert (HPI := PI_RGT_0).
  replace (IZR (x mod max_)) with (2 * PI * IZR (x mod max_) / IZR max_ * (IZR max_ / (2 * PI)))
    by (field; lra).
  rewrite H. field. lra.
Qed.

(** Two angles of one turn with the same sine and cosine are equal. *)
Lemma sin_cos_inj a b :
  0 <= a < 2 * PI -> 0 <= b < 2 * PI ->
  sin a = sin b -> cos a = cos b -> a = b.
Proof.
  intros Ha Hb Hs Hc.
  assert (HPI := PI_RGT_0).
  assert (Hsd : sin (a - b) = 0).
  { rewrite sin_minus, Hs, Hc. ring. }
  assert (Hcd : cos (a - b) = 1).
  { rewrite cos_minus, Hs, Hc. rewrite Rplus_comm. apply sin2_cos2. }
  destruct (sin_eq_0_0 _ Hsd) as [k Hk].
  assert (Hk' : (-2 < k < 2)%Z).
  { split; apply lt_IZR; nra. }
  assert (Hcases : k = (-1)%Z \/ k = 0%Z \/ k = 1%Z) by lia.
  destruct Hcases as [-> | [-> | ->]].
  - exfalso. replace (a - b) with (- PI) in Hcd by lra.
    rewrite cos_neg, cos_PI in Hcd. lra.
  - lra.
  - exfalso. replace (a - b) with PI in Hcd by lra.
    rewrite cos_PI in Hcd. lra.
Qed.

Lemma to_coord_columns_inj max_ : forall xs ys : list Z,
  (0 < max_)%Z ->
  sin <$> (rad max_ <$> xs) = sin <$> (rad max_ <$> ys) ->
  cos <$> (rad max_ <$> xs) = cos <$> (rad max_ <$> ys) ->
  (fun v => (v mod max_)%Z) <$> xs = (fun v => (v mod max_)%Z) <$> ys.
Proof.
  intros xs ys Hm. revert ys.
  induction xs as [|x xs IH]; intros [|y ys] Hs Hc; try discriminate; [reflexivity|].
  rewrite !fmap_cons in Hs, Hc. injection Hs as Hs1 Hs2. injection Hc as Hc1 Hc2.
  rewrite !fmap_cons. f_equal; [|now apply IH].
  apply rad_inj; [assumption|].
  apply sin_cos_inj; auto using rad_range.
Qed.

Lemma rad_mod max_ x : rad max_ (x mod max_) = rad max_ x.
Proof. unfold rad. now rewrite Zmod_mod. Qed.

Lemma fmap_rad_mod max_ (xs ys : list Z) :
  (fun v => (v mod max_)%Z) <$> xs = (fun v => (v mod max_)%Z) <$> ys ->
  rad max_ <$> xs = rad max_ <$> ys.
Proof.
  revert ys. induction xs as [|x xs IH]; intros [|y ys] H; try discriminate; [reflexivity|].
  rewrite !fmap_cons in H. injection H as H1 H2. rewrite !fmap_cons. f_equal; [|now apply IH].
  now rewrite <- (rad_mod max_ x), <- (rad_mod max_ y), H1.
Qed.

(** X1: [to_coord] encodes an integer column exactly up to the period:
    two columns get the same sine and cosine columns if and only if they
    agree entry by entry modulo [max_]. *)
Theorem to_coord_eq_iff_mod (xs ys : list Z) (max_ : Z) (name : string) :
  (0 < max_)%Z ->
  to_coord xs max_ name = to_coord ys max_ name
  <-> (fun v => (v mod max_)%Z) <$> xs = (fun v => (v mod max_)%Z) <$> ys.
Proof.
  intros Hm. unfold to_coord. split.
  - intros H. injection H as Hs Hc. now apply to_coord_columns_inj.
  - intros H. now rewrite (fmap_rad_mod _ _ _ H).
Qed.

Lemma to_coord_eq_iff_mod_witness :
  (0 < 24)%Z
  /\ (to_coord [25; 0]%Z 24 "hour" = to_coord [1; 48]%Z 24 "hour"
      <-> (fun v => (v mod 24)%Z) <$> [25; 0]%Z = (fun v => (v mod 24)%Z) <$> [1; 48]%Z).
Proof.
  assert (H : (0 < 24)%Z) by lia.
  split; [exact H|]. exact (to_coord_eq_iff_mod [25; 0]%Z [1; 48]%Z 24 "hour" H).
Defined.

Lemma succ_mod_cases x m :
  (0 < m)%Z ->
  ((x + 1) mod m = x mod m + 1)%Z \/ ((x + 1) mod m = 0 /\ x mod m = m - 1)%Z.
Proof.
  intros Hm.
  destruct (Z.mod_pos_bound x m Hm) as [H0 H1].
  destruct (Z.eq_dec (x mod m)%Z (m - 1)%Z) as [He|Hne].
  - right. split; [|exact He].
    rewrite <- Zplus_mod_idemp_l, He.
    replace (m - 1 + 1)%Z with m by lia. apply Z_mod_same_full.
  - left. rewrite <- Zplus_mod_idemp_l. apply Z.mod_small. lia.
Qed.

(** X2: consecutive values are encoded one step of [2*pi/max_] apart on
    the circle, also across the wrap from [max_ - 1] to [0]: the squared
    distance between the points of [x] and [x + 1] is
    [2 - 2*cos(2*pi/max_)] for every [x]. *)
Theorem to_coord_step_uniform (x max_ : Z) :
  (0 < max_)%Z ->
  (sin (rad max_ (x + 1)) - sin (rad max_ x)) ^ 2
  + (cos (rad max_ (x + 1)) - cos (rad max_ x)) ^ 2
  = 2 - 2 * cos (2 * PI / IZR max_).
Proof.
  intros Hm.
  set (a := rad max_ x). set (b := rad max_ (x + 1)).
  assert (Hchord : (sin b - sin a) ^ 2 + (cos b - cos a) ^ 2 = 2 - 2 * cos (b - a)).
  { rewrite cos_minus.
    assert (Ha := sin2_cos2 a). assert (Hb := sin2_cos2 b).
    rewrite !Rsqr_pow2 in Ha, Hb. nra. }
  rewrite Hchord. f_equal. f_equal.
  assert (Hm' : 0 < IZR max_) by now apply IZR_lt.
  unfold a, b, rad.
  destruct (succ_mod_cases x max_ Hm) as [H|[H1 H2]].
  - rewrite H, plus_IZR. f_equal. field. lra.
  - rewrite H1, H2, minus_IZR.
    replace (2 * PI * 0 / IZR max_ - 2 * PI * (IZR max_ - 1) / IZR max_)
      with (2 * PI / IZR max_ - 2 * PI) by (field; lra).
    rewrite cos_minus, cos_2PI, sin_2PI. ring.
Qed.

Lemma to_coord_step_uniform_witness :
  (0 < 24)%Z
  /\ (sin (rad 24 (23 + 1)) - sin (rad 24 23)) ^ 2
     + (cos (rad 24 (23 + 1)) - cos (rad 24 23)) ^ 2
     = 2 - 2 * cos (2 * PI / IZR 24).
Proof.
  assert (H : (0 < 24)%Z) by lia.
  split; [exact H|]. exact (to_coord_step_uniform 23 24 H).
Defined.

(** X3: every value [to_coord] emits lies between -1 and 1, and each
    emitted column is as long as the input column. *)
Theorem to_coord_bounded (x : list Z) (max_ : Z) (name n : string) (col : list R) :
  (n, col) ∈ to_coord x max_ name ->
  length col = length x /\ Forall (fun v => -1 <= v <= 1) col.
Proof.
  unfold to_coord. intros H.
  apply elem_of_cons in H as [H|H]; [|apply list_elem_of_singleton in H];
    injection H as _ ->; rewrite !length_fmap; (split; [reflexivity|]);
    apply Forall_fmap, Forall_forall; intros v _; cbn.
  - apply SIN_bound.
  - apply COS_bound.
Qed.

Lemma to_coord_bounded_witness :
  (("minute_cos"%string, cos <$> (rad 60 <$> [0; 59; 61]%Z))
     ∈ to_coord [0; 59; 61]%Z 60 "minute")
  /\ length (cos <$> (rad 60 <$> [0; 59; 61]%Z)) = length [0; 59; 61]%Z
  /\ Forall (fun v => -1 <= v <= 1) (cos <$> (rad 60 <$> [0; 59; 61]%Z)).
Proof.
  assert (H : ("minute_cos"%string, cos <$> (rad 60 <$> [0; 59; 61]%Z))
                ∈ to_coord [0; 59; 61]%Z 60 "minute") by (right; left).
  split; [exact H|]. exact (to_coord_bounded _ _ _ _ _ H).
Defined.

(* ===================================================================== *)
(** ** Further properties of [add_feature] and [save_each_series] *)
(* ===================================================================== *)















(* ===================================================================== *)
(** ** Further properties of a run *)
(* ===================================================================== *)







(** X9: when the table of the phase is missing, or the path holds
    something that is not a table, the run ends with an I/O error; by then
    the old output tree has already been removed, and nothing is saved. *)
Theorem missing_table_aborts cfg fs src :
  fs !! output_dir cfg = None ->
  source_path cfg = Some src ->
  (forall rows, remove_tree (output_dir cfg) fs !! src <> Some (Parquet rows)) ->
  (run cfg fs).1 = inl IOError
  /\ files (run cfg fs).2 = remove_tree (output_dir cfg) fs
  /\ (forall p, output_dir cfg `prefix_of` p -> files (run cfg fs).2 !! p = None)
  /\ (forall e, e ∈ log (run cfg fs).2 -> e = EvRmtree (output_dir cfg)).
Proof.
  intros Hroot Hsrc Hmissing. rewrite run_eq. unfold run_outcome. rewrite Hroot, Hsrc.
  destruct (remove_tree (output_dir cfg) fs !! src) as [[rows| |]|] eqn:Hlook;
    [exfalso; now apply (Hmissing rows)|..];
    cbn [fst snd files log]; (split_and!; [reflexivity|reflexivity| |apply cleanup_log]);
    intros p Hp; now apply remove_tree_clean.
Qed.

Lemma missing_table_aborts_witness :
  (no_table_fs !! output_dir S1_cfg = None
   /\ source_path S1_cfg = Some ["data"; "train_series.parquet"]%string
   /\ forall rows, remove_tree (output_dir S1_cfg) no_table_fs
                     !! ["data"; "train_series.parquet"]%string <> Some (Parquet rows))
  /\ (run S1_cfg no_table_fs).1 = inl IOError
  /\ files (run S1_cfg no_table_fs).2 = remove_tree (output_dir S1_cfg) no_table_fs
  /\ (forall p, output_dir S1_cfg `prefix_of` p -> files (run S1_cfg no_table_fs).2 !! p = None)
  /\ (forall e, e ∈ log (run S1_cfg no_table_fs).2 -> e = EvRmtree (output_dir S1_cfg)).
Proof.
  assert (H1 : no_table_fs !! output_dir S1_cfg = None) by (vm_compute; reflexivity).
  assert (H2 : source_path S1_cfg = Some ["data"; "train_series.parquet"]%string)
    by (vm_compute; reflexivity).
  assert (H3 : forall rows, remove_tree (output_dir S1_cfg) no_table_fs
                              !! ["data"; "train_series.parquet"]%string <> Some (Parquet rows)).
  { intros rows H. vm_compute in H. discriminate. }
  split; [split_and!; assumption|].
  exact (missing_table_aborts S1_cfg no_table_fs _ H1 H2 H3).
Defined.

(** X10: when [{processed_dir}/{phase}] is a regular file, the clean-up
    itself fails: the run ends with an I/O error before anything is read,
    removed or written. *)
Theorem output_dir_is_file_aborts cfg fs c :
  fs !! output_dir cfg = Some c ->
  run cfg fs = (inl IOError, {| files := fs; log := [] |}).
Proof.
  intros Hroot. rewrite run_eq. unfold run_outcome. now rewrite Hroot.
Qed.

Lemma output_dir_is_file_aborts_witness :
  blocked_fs !! output_dir S1_cfg = Some Blob
  /\ run S1_cfg blocked_fs = (inl IOError, {| files := blocked_fs; log := [] |}).
Proof.
  assert (H : blocked_fs !! output_dir S1_cfg = Some Blob) by (vm_compute; reflexivity).
  split; [exact H|]. exact (output_dir_is_file_aborts S1_cfg blocked_fs Blob H).
Defined.




(** X12: in the [train] and [test] phases nothing keeps the raw data
    directory apart from the output tree: when [data_dir] lies at or below
    [{processed_dir}/{phase}], the clean-up removes the table before it is
    read, and the run always ends with an I/O error, the table gone. *)
Theorem data_dir_inside_output_tree cfg fs :
  cfg_phase cfg ∈ ["train"; "test"]%string ->
  output_dir cfg `prefix_of` cfg_data_dir cfg ->
  (run cfg fs).1 = inl IOError
  /\ (fs !! output_dir cfg = None ->
      files (run cfg fs).2
        !! (cfg_data_dir cfg / (cfg_phase cfg +:+ "_series.parquet"))%path = None).
Proof.
  intros Hphase Hinside. rewrite run_eq. unfold run_outcome, source_path.
  rewrite bool_decide_eq_true_2 by assumption.
  assert (Hgone : remove_tree (output_dir cfg) fs
                    !! (cfg_data_dir cfg / (cfg_phase cfg +:+ "_series.parquet"))%path = None).
  { apply remove_tree_clean. unfold joinpath. now apply prefix_app_r. }
  destruct (fs !! output_dir cfg); [split; [reflexivity|discriminate]|].
  rewrite Hgone. split; [reflexivity|]. intros _. exact Hgone.
Qed.

Lemma data_dir_inside_output_tree_witness :
  ((cfg_phase nested_cfg ∈ ["train"; "test"]%string)
   /\ output_dir nested_cfg `prefix_of` cfg_data_dir nested_cfg
   /\ nested_fs !! ["out"; "train"; "raw"; "train_series.parquet"]%string
      = Some (Parquet [S1_row]))
  /\ (run nested_cfg nested_fs).1 = inl IOError.
Proof.
  assert (H1 : cfg_phase nested_cfg ∈ ["train"; "test"]%string) by left.
  assert (H2 : output_dir nested_cfg `prefix_of` cfg_data_dir nested_cfg)
    by (exists ["raw"%string]; reflexivity).
  split; [split_and!; [exact H1|exact H2|vm_compute; reflexivity]|].
  exact (proj1 (data_dir_inside_output_tree nested_cfg nested_fs H1 H2)).
Defined.

(* ===================================================================== *)
(** ** Groups, counts and the order of the input *)
(* ===================================================================== *)

Lemma of_series_without k (ks : list string) (df : list Sample) :
  k ∉ ks ->
  ks ≫= (fun k' => of_series k' df)
  = ks ≫= (fun k' => of_series k' (filter (fun r => series_id r <> k) df)).
Proof.
  induction ks as [|k' ks IH]; intros Hk; [reflexivity|].
  rewrite !bind_cons. apply not_elem_of_cons in Hk as [Hne Hk]. f_equal; [|now apply IH].
  unfold of_series. rewrite list_filter_filter.
  apply list_filter_iff. intros r. split; [intros ->; auto|tauto].
Qed.

Lemma partition_by_keys (ks : list string) : forall df : list Sample,
  NoDup ks -> (forall r, r ∈ df -> series_id r ∈ ks) ->
  ks ≫= (fun k => of_series k df) ≡ₚ df.
Proof.
  induction ks as [|k ks IH]; intros df Hnd Hall.
  - destruct df as [|r df]; [reflexivity|].
    exfalso. eapply elem_of_nil, (Hall r). left.
  - apply NoDup_cons in Hnd as [Hk Hnd]. rewrite bind_cons.
    set (rest := filter (fun r => series_id r <> k) df).
    assert (Hrest : ks ≫= (fun k' => of_series k' df) = ks ≫= (fun k' => of_series k' rest))
      by now apply of_series_without.
    rewrite Hrest, IH; [| exact Hnd |].
    + unfold of_series, rest. apply filter_app_complement.
    + intros r Hr. apply list_elem_of_filter in Hr as [Hne Hr].
      specialize (Hall r Hr). apply elem_of_cons in Hall as [?|?]; [contradiction|assumption].
Qed.

(** X13: [group_by] splits a frame into its series without loss or
    overlap: the keys are pairwise distinct, no group is empty, a group
    holds exactly the rows of its key in the order of the frame, and the
    groups together are a rearrangement of the frame. *)
Theorem group_by_partition (df : list Sample) :
  NoDup (group_by df).*1
  /\ (forall sid g, (sid, g) ∈ group_by df ->
        g <> [] /\ g = of_series sid df /\ Forall (fun r => series_id r = sid) g)
  /\ (forall r, r ∈ df -> exists g, (series_id r, g) ∈ group_by df /\ r ∈ g)
  /\ mjoin (group_by df).*2 ≡ₚ df.
Proof.
  split_and!.
  - apply group_by_keys_NoDup.
  - intros sid g Hg. unfold group_by in Hg.
    apply list_elem_of_fmap in Hg as (s & [= -> ->] & Hs).
    apply elem_of_remove_dups, list_elem_of_fmap in Hs as (r & -> & Hr).
    split_and!; [|reflexivity|].
    + intros Hnil. apply (filter_nil_not_elem_of _ _ r) in Hnil; auto.
    + apply Forall_forall. intros r' Hr'. now apply list_elem_of_filter in Hr' as [? _].
  - intros r Hr. exists (of_series (series_id r) df). split.
    + unfold group_by. apply list_elem_of_fmap. exists (series_id r). split; [reflexivity|].
      apply elem_of_remove_dups, list_elem_of_fmap. eauto.
    + apply list_elem_of_filter. auto.
  - unfold group_by. rewrite <- list_fmap_compose.
    rewrite <- (partition_by_keys (remove_dups (series_id <$> df)) df) at 2.
    + generalize (remove_dups (series_id <$> df)). intros ks.
      induction ks as [|k ks IH]; [reflexivity|]. cbn. now rewrite IH.
    + apply NoDup_remove_dups.
    + intros r Hr. apply elem_of_remove_dups, list_elem_of_fmap. eauto.
Qed.





(** X15: on an empty table the run succeeds and writes nothing: no
    directory is made, not even the one of the phase, and the output tree
    is empty afterwards. *)
Theorem empty_table_run cfg fs src :
  fs !! output_dir cfg = None ->
  source_path cfg = Some src ->
  remove_tree (output_dir cfg) fs !! src = Some (Parquet []) ->
  (run cfg fs).1 = inr tt
  /\ files (run cfg fs).2 = remove_tree (output_dir cfg) fs
  /\ subtree (output_dir cfg) (files (run cfg fs).2) = ∅
  /\ (forall p, EvMkdir p ∉ log (run cfg fs).2)
  /\ (forall p, EvSave p ∉ log (run cfg fs).2).
Proof.
  intros Hroot Hsrc Htable. rewrite run_eq. unfold run_outcome.
  rewrite Hroot, Hsrc, Htable. cbn [preprocess fst snd files log].
  assert (Hlog : forall e, e ∈ (if bool_decide (subtree (output_dir cfg) fs ≠ ∅)
                                then [EvRmtree (output_dir cfg)] else [])
                               ++ EvScanParquet src :: output_events (output_dir cfg) [] ->
                 e = EvRmtree (output_dir cfg) \/ e = EvScanParquet src).
  { intros e He. apply elem_of_app in He as [He|He]; [left; now apply cleanup_log in He|].
    right. now apply list_elem_of_singleton in He. }
  split_and!; try reflexivity.
  - apply map_eq. intros p. rewrite subtree_lookup, lookup_empty.
    destruct (decide (output_dir cfg `prefix_of` p)); [|reflexivity].
    now apply remove_tree_clean.
  - intros p Hp. destruct (Hlog _ Hp); discriminate.
  - intros p Hp. destruct (Hlog _ Hp); discriminate.
Qed.

Lemma empty_table_run_witness :
  (empty_table_fs !! output_dir S1_cfg = None
   /\ source_path S1_cfg = Some ["data"; "train_series.parquet"]%string
   /\ remove_tree (output_dir S1_cfg) empty_table_fs !! ["data"; "train_series.parquet"]%string
      = Some (Parquet []))
  /\ (run S1_cfg empty_table_fs).1 = inr tt
  /\ files (run S1_cfg empty_table_fs).2 = remove_tree (output_dir S1_cfg) empty_table_fs
  /\ subtree (output_dir S1_cfg) (files (run S1_cfg empty_table_fs).2) = ∅
  /\ (forall p, EvMkdir p ∉ log (run S1_cfg empty_table_fs).2)
  /\ (forall p, EvSave p ∉ log (run S1_cfg empty_table_fs).2).
Proof.
  assert (H1 : empty_table_fs !! output_dir S1_cfg = None) by (vm_compute; reflexivity).
  assert (H2 : source_path S1_cfg = Some ["data"; "train_series.parquet"]%string)
    by (vm_compute; reflexivity).
  assert (H3 : remove_tree (output_dir S1_cfg) empty_table_fs
                 !! ["data"; "train_series.parquet"]%string = Some (Parquet []))
    by (vm_compute; reflexivity).
  split; [split_and!; assumption|].
  exact (empty_table_run S1_cfg empty_table_fs _ H1 H2 H3).
Defined.







(* ===================================================================== *)
(** ** Further properties of the normalisation and of the components *)
(* ===================================================================== *)


Lemma dt_hour_range t : (0 <= dt.hour t < 24)%Z.
Proof.
  unfold dt.hour, Calendar.US_PER_DAY, Calendar.US_PER_HOUR, Calendar.US_PER_MINUTE,
    Calendar.US_PER_SECOND.
  Z.div_mod_to_equations. lia.
Qed.

Lemma dt_minute_range t : (0 <= dt.minute t < 60)%Z.
Proof.
  unfold dt.minute, Calendar.US_PER_HOUR, Calendar.US_PER_MINUTE, Calendar.US_PER_SECOND.
  Z.div_mod_to_equations. lia.
Qed.

Lemma dt_month_range t : (1 <= dt.month t <= 12)%Z.
Proof.
  unfold dt.month, Calendar.civil_from_days.
  generalize (Z.div t Calendar.US_PER_DAY). intros z. cbv zeta.
  match goal with
  | |- context [Z.ltb ?a 10] => destruct (Z.ltb_spec a 10) as [H|H]; revert H
  end; Z.div_mod_to_equations; lia.
Qed.

(** X18: the remainder taken in [to_coord] leaves the hour and the
    minute of every timestamp as they are; of the months it changes only
    December, which becomes 0.  So the hour and minute channels are the
    sine and cosine of [2*pi*hour/24] and [2*pi*minute/60], and December
    is encoded at angle 0, like no other month. *)
Theorem remainder_only_moves_december (r : Sample) :
  (dt.hour (timestamp r) mod 24 = dt.hour (timestamp r))%Z
  /\ (dt.minute (timestamp r) mod 60 = dt.minute (timestamp r))%Z
  /\ (dt.month (timestamp r) mod 12
      = if (dt.month (timestamp r) =? 12)%Z then 0 else dt.month (timestamp r))%Z
  /\ channel "hour_sin" r = sin (2 * PI * IZR (dt.hour (timestamp r)) / 24)
  /\ channel "hour_cos" r = cos (2 * PI * IZR (dt.hour (timestamp r)) / 24)
  /\ channel "minute_sin" r = sin (2 * PI * IZR (dt.minute (timestamp r)) / 60)
  /\ channel "minute_cos" r = cos (2 * PI * IZR (dt.minute (timestamp r)) / 60)
  /\ (rad 12 (dt.month (timestamp r)) = 0 <-> dt.month (timestamp r) = 12%Z).
Proof.
  assert (Hh := dt_hour_range (timestamp r)).
  assert (Hm := dt_minute_range (timestamp r)).
  assert (Hmo := dt_month_range (timestamp r)).
  assert (H1 : (dt.hour (timestamp r) mod 24 = dt.hour (timestamp r))%Z)
    by (apply Z.mod_small; lia).
  assert (H2 : (dt.minute (timestamp r) mod 60 = dt.minute (timestamp r))%Z)
    by (apply Z.mod_small; lia).
  assert (H3 : (dt.month (timestamp r) mod 12
                = if (dt.month (timestamp r) =? 12)%Z then 0 else dt.month (timestamp r))%Z).
  { destruct (Z.eqb_spec (dt.month (timestamp r)) 12) as [->|Hne]; [reflexivity|].
    apply Z.mod_small. lia. }
  split_and!; try assumption.
  - change (channel "hour_sin" r) with (sin (rad 24 (dt.hour (timestamp r)))).
    unfold rad. now rewrite H1.
  - change (channel "hour_cos" r) with (cos (rad 24 (dt.hour (timestamp r)))).
    unfold rad. now rewrite H1.
  - change (channel "minute_sin" r) with (sin (rad 60 (dt.minute (timestamp r)))).
    unfold rad. now rewrite H2.
  - change (channel "minute_cos" r) with (cos (rad 60 (dt.minute (timestamp r)))).
    unfold rad. now rewrite H2.
  - unfold rad. rewrite H3. assert (HPI := PI_RGT_0).
    destruct (Z.eqb_spec (dt.month (timestamp r)) 12) as [He|Hne].
    + split; [intros _; exact He|intros _; lra].
    + split; [|contradiction]. intros H. exfalso.
      assert (Hpos : 0 < IZR (dt.month (timestamp r))) by (apply IZR_lt; lia).
      assert (Hz : 2 * PI * IZR (dt.month (timestamp r)) / 12 > 0).
      { apply Rmult_lt_0_compat; [|lra]. apply Rmult_lt_0_compat; lra. }
      lra.
Qed.


